(** * Tatsoryk, C++ server stub: [server-cpp/src/main.cpp]

    A shallow embedding of the two functions of the file, [listen] and
    [main], and of the two library routines they rely on, [std::stoi] and
    [operator<<] on [std::cout].

    - [int] is a 32-bit two's-complement integer, held as a [Z] between
      [INT_MIN] and [INT_MAX];
    - [std::string] and the NUL-terminated entries of [argv] are [string];
    - the process is a state-and-exception monad [M] over a [World]: the
      characters written to [std::cout] so far, and everything else the
      process could touch (sockets, threads, files), kept abstract as [Env];
    - a C++ exception that leaves [main] ends the process through
      [std::terminate]: outcome [Terminated]. *)

From Stdlib Require Import ZArith List String Ascii Bool Lia.
From Stdlib Require Import DecimalString DecimalPos DecimalZ.
Import ListNotations.

Local Open Scope string_scope.
Local Open Scope Z_scope.

(** ** The type [int] *)

Definition INT_MIN : Z := -2147483648.
Definition INT_MAX : Z := 2147483647.

Definition in_int_range (v : Z) : bool := (INT_MIN <=? v) && (v <=? INT_MAX).

(** ** Exceptions of [<stdexcept>] thrown by [std::stoi] *)

Inductive exn : Type :=
| invalid_argument
| out_of_range.

(** ** [std::stoi (str)], base 10, no position pointer

    [stoi] hands the characters to [strtol]: white space of the C locale is
    skipped, one sign is read if present, then the longest run of decimal
    digits. No digit at all throws [std::invalid_argument]; a value that
    does not fit [int] throws [std::out_of_range]; what follows the digits
    is not looked at. *)

Definition isspace (c : ascii) : bool :=
  let n := N_of_ascii c in
  ((n =? 32) || ((9 <=? n) && (n <=? 13)))%N.

Definition isdigit (c : ascii) : bool :=
  let n := N_of_ascii c in
  ((48 <=? n) && (n <=? 57))%N.

Definition digit_value (c : ascii) : Z := Z.of_N (N_of_ascii c) - 48.

Fixpoint skip_space (s : string) : string :=
  match s with
  | String c s' => if isspace c then skip_space s' else s
  | EmptyString => s
  end.

(** The sign, [true] for a minus, and the characters after it. *)
Definition read_sign (s : string) : bool * string :=
  match s with
  | String c s' =>
      if Ascii.eqb c "-" then (true, s')
      else if Ascii.eqb c "+" then (false, s')
      else (false, s)
  | EmptyString => (false, s)
  end.

(** The values of the leading decimal digits, most significant first. *)
Fixpoint read_digits (s : string) : list Z :=
  match s with
  | String c s' => if isdigit c then digit_value c :: read_digits s' else []
  | EmptyString => []
  end.

Definition digits_value (ds : list Z) : Z :=
  fold_left (fun acc d => 10 * acc + d) ds 0.

(** The subject sequence of [strtol]: the sign and the digits it converts. *)
Definition subject (s : string) : bool * list Z :=
  let (neg, s') := read_sign (skip_space s) in (neg, read_digits s').

Definition signed_value (neg : bool) (ds : list Z) : Z :=
  if neg then - digits_value ds else digits_value ds.

Definition stoi (str : string) : exn + Z :=
  let (neg, ds) := subject str in
  match ds with
  | [] => inl invalid_argument
  | _ :: _ =>
      let v := signed_value neg ds in
      if in_int_range v then inr v else inl out_of_range
  end.

(** ** [std::cout << int]: decimal digits, a leading minus when negative *)

Definition show_int (n : Z) : string := NilZero.string_of_int (Z.to_int n).

(** The one-character string ["\n"]. *)
Definition newline : string := String (ascii_of_nat 10) EmptyString.

(** How the process ends: [main] returned [code], or an exception left
    [main] and [std::terminate] was called. *)
Inductive outcome : Type :=
| Exited (code : Z)
| Terminated (e : exn).

(** ** The process *)

Section Process.

(** Whatever the process can reach besides [std::cout]. *)
Variable Env : Type.

Record World : Type := mkWorld {
  w_cout : string;
  w_env : Env
}.

(** A computation either returns a value or throws, in a new world. *)
Definition M (A : Type) : Type := World -> World * (exn + A).

Definition ret {A : Type} (a : A) : M A := fun w => (w, inr a).

Definition bind {A B : Type} (m : M A) (k : A -> M B) : M B :=
  fun w =>
    match m w with
    | (w', inr a) => k a w'
    | (w', inl e) => (w', inl e)
    end.

(** A library call that returns or throws without touching the world. *)
Definition lift {A : Type} (r : exn + A) : M A := fun w => (w, r).

(** [std::cout << s] *)
Definition cout_string (s : string) : M unit :=
  fun w => (mkWorld (w_cout w ++ s) (w_env w), inr tt).

(** [std::cout << n] for an [int] *)
Definition cout_int (n : Z) : M unit := cout_string (show_int n).

Notation "x <- m ;; k" := (bind m (fun x => k))
  (at level 61, m at next level, right associativity).
Notation "m ;; k" := (bind m (fun _ => k))
  (at level 61, right associativity).

(** [void listen(std::string host, int port)] *)
Definition listen (host : string) (port : Z) : M unit :=
  cout_string "Listening on " ;;
  cout_string host ;;
  cout_string ":" ;;
  cout_int port ;;
  cout_string newline.

(** [int main(int argc, char** argv)]; [argc] is the length of [argv]. *)
Definition main (argv : list string) : M Z :=
  let argc := Z.of_nat (List.length argv) in
  let host := "127.0.0.1" in
  let port := 8080 in
  let host := if 2 <=? argc then nth 1 argv "" else host in
  port <- (if 3 <=? argc then lift (stoi (nth 2 argv "")) else ret port) ;;
  listen host port ;;
  ret 0.

Definition run (argv : list string) (w : World) : World * outcome :=
  match main argv w with
  | (w', inr code) => (w', Exited code)
  | (w', inl e) => (w', Terminated e)
  end.

(** The world after [s] has been written to [std::cout]. *)
Definition printed (s : string) (w : World) : World :=
  mkWorld (w_cout w ++ s) (w_env w).

End Process.

Arguments mkWorld {Env} _ _.
Arguments w_cout {Env} _.
Arguments w_env {Env} _.
Arguments ret {Env A} _ _.
Arguments bind {Env A B} _ _ _.
Arguments lift {Env A} _ _.
Arguments cout_string {Env} _ _.
Arguments cout_int {Env} _ _.
Arguments listen {Env} _ _ _.
Arguments main {Env} _ _.
Arguments run {Env} _ _.
Arguments printed {Env} _ _.

(** The line [listen] writes. *)
Definition listening_line (host : string) (port : Z) : string :=
  "Listening on " ++ host ++ ":" ++ show_int port ++ newline.

(** ** The command line as the specification words it

    "host (string, default 127.0.0.1), port (integer, default 8080)": the
    first argument after the program name is the host, the integer parse of
    the second is the port. These two follow the words of the specification,
    to be compared with what [main] does. *)

Definition host_argument (argv : list string) : string :=
  match tl argv with
  | h :: _ => h
  | [] => "127.0.0.1"
  end.

Definition port_argument (argv : list string) : exn + Z :=
  match tl argv with
  | _ :: p :: _ => stoi p
  | _ => inr 8080
  end.

(** A string [stoi] cannot turn into an [int]: no digit where the number
    should start, or digits whose value lies outside [int]. *)
Definition unparseable (s : string) : Prop :=
  let (neg, ds) := subject s in
  ds = [] \/ signed_value neg ds < INT_MIN \/ INT_MAX < signed_value neg ds.

(** ** The listener the specification describes

    The source binds nothing. What follows states, in the words of the
    specification, when binding would have to fail, only to be able to say
    what the source does in those situations. *)

(** Modelled from the spec: the port range of its [ListenerConfig],
    "port: integer 0-65535"; the source declares no such type. *)
Definition valid_port (port : Z) : Prop := 0 <= port <= 65535.






(** ** Observations on a run *)

(** The run printed the one line and [main] returned. *)
Definition prints_line_and_exits {Env : Type}
    (argv : list string) (w : World Env) : Prop :=
  exists host port code,
    run argv w = (printed (listening_line host port) w, Exited code).

(** The run reached [listen] with [port]: it wrote the line for it. *)
Definition uses_port {Env : Type}
    (argv : list string) (w : World Env) (port : Z) : Prop :=
  exists host, fst (run argv w) = printed (listening_line host port) w.

(** Every port the run uses is one a listener can be bound to. *)
Definition ports_validated {Env : Type}
    (argv : list string) (w : World Env) : Prop :=
  forall port, uses_port argv w port -> valid_port port.

(** A run whose port cannot be bound does not end with exit code 0. *)
Definition bind_failure_exit_code {Env : Type}
    (argv : list string) (w : World Env) : Prop :=
  forall port, uses_port argv w port -> ~ valid_port port ->
  snd (run argv w) <> Exited 0.


(** A process that has printed nothing yet, with nothing else around it. *)
Definition fresh_world : World unit := mkWorld "" tt.



(** [c] occurs in [s]. *)
Fixpoint mentions (c : ascii) (s : string) : bool :=
  match s with
  | EmptyString => false
  | String x s' => Ascii.eqb x c || mentions c s'
  end.

(** ** Examples *)

Example stoi_8080 : stoi "8080" = inr 8080.
Proof. reflexivity. Qed.

Example stoi_trailing : stoi "  +80abc" = inr 80.
Proof. reflexivity. Qed.

Example stoi_neg : stoi "-1" = inr (-1).
Proof. reflexivity. Qed.

Example stoi_word : stoi "http" = inl invalid_argument.
Proof. reflexivity. Qed.

Example stoi_big : stoi "2147483648" = inl out_of_range.
Proof. reflexivity. Qed.

Example stoi_min : stoi "-2147483648" = inr INT_MIN.
Proof. reflexivity. Qed.

Example run_default :
  run ["tatsoryk"] (mkWorld "" tt)
  = (mkWorld ("Listening on 127.0.0.1:8080" ++ newline) tt, Exited 0).
Proof. reflexivity. Qed.

Example run_neg :
  run ["tatsoryk"; "localhost"; "-1"] (mkWorld "" tt)
  = (mkWorld ("Listening on localhost:-1" ++ newline) tt, Exited 0).
Proof. reflexivity. Qed.

Example run_word :
  run ["tatsoryk"; "localhost"; "http"] (mkWorld "" tt)
  = (mkWorld "" tt, Terminated invalid_argument).
Proof. reflexivity. Qed.

Example run_big :
  run ["tatsoryk"; "localhost"; "99999999999"] (mkWorld "" tt)
  = (mkWorld "" tt, Terminated out_of_range).
Proof. reflexivity. Qed.

Example run_extra :
  run ["tatsoryk"; "::1"; "80x"; "ignored"] (mkWorld "" tt)
  = (mkWorld ("Listening on ::1:80" ++ newline) tt, Exited 0).
Proof. reflexivity. Qed.

(** ** Strings *)

Lemma append_assoc (a b c : string) : (a ++ b) ++ c = a ++ (b ++ c).
Proof.
  induction a as [|x a IH]; simpl.
  - reflexivity.
  - now rewrite IH.
Qed.

Lemma append_empty_r (a : string) : a ++ "" = a.
Proof.
  induction a as [|x a IH]; simpl; [reflexivity | now rewrite IH].
Qed.

(** ** The monad *)

Section MonadLaws.

Context {Env : Type}.

Lemma bind_ret_l {A B : Type} (a : A) (k : A -> M Env B) (w : World Env) :
  bind (ret a) k w = k a w.
Proof. reflexivity. Qed.

Lemma bind_lift_inr {A B : Type} (a : A) (k : A -> M Env B) (w : World Env) :
  bind (lift (inr a)) k w = k a w.
Proof. reflexivity. Qed.

Lemma bind_lift_inl {A B : Type} (e : exn) (k : A -> M Env B) (w : World Env) :
  bind (lift (inl e)) k w = (w, inl e).
Proof. reflexivity. Qed.

Lemma bind_cout_string {B : Type} (s : string) (k : unit -> M Env B)
      (w : World Env) :
  bind (cout_string s) k w = k tt (printed s w).
Proof. reflexivity. Qed.

End MonadLaws.

(** ** What [listen] and [main] compute *)

(** Decide the tests [argc >= 2] and [argc >= 3] once the shape of [argv]
    is known. *)
Ltac argc_test :=
  repeat match goal with
  | |- context [?k <=? Z.of_nat ?n] =>
      let H := fresh "Hargc" in
      destruct (Z.leb_spec k (Z.of_nat n)) as [H | H];
      cbn [List.length] in H; try lia; clear H
  end.

Section Behaviour.

Context {Env : Type}.
Implicit Types (w : World Env) (argv : list string).

Lemma listen_eq host port w :
  listen host port w = (printed (listening_line host port) w, inr tt).
Proof.
  unfold listen, cout_int, listening_line.
  rewrite !bind_cout_string.
  unfold cout_string, printed; cbn [w_cout w_env].
  now rewrite !append_assoc.
Qed.

(** [main], read off the argument vector: it throws what [stoi] throws on
    [argv[2]], and otherwise calls [listen] and returns 0. *)
Lemma main_eq argv w :
  main argv w =
  match port_argument argv with
  | inr port => (printed (listening_line (host_argument argv) port) w, inr 0)
  | inl e => (w, inl e)
  end.
Proof.
  unfold main, port_argument, host_argument.
  destruct argv as [|a0 [|h [|p rest]]]; cbn [tl nth]; argc_test.
  - rewrite bind_ret_l. unfold bind. now rewrite listen_eq.
  - rewrite bind_ret_l. unfold bind. now rewrite listen_eq.
  - rewrite bind_ret_l. unfold bind. now rewrite listen_eq.
  - destruct (stoi p) as [e | port].
    + now rewrite bind_lift_inl.
    + rewrite bind_lift_inr. unfold bind. now rewrite listen_eq.
Qed.

Lemma run_eq argv w :
  run argv w =
  match port_argument argv with
  | inr port =>
      (printed (listening_line (host_argument argv) port) w, Exited 0)
  | inl e => (w, Terminated e)
  end.
Proof.
  unfold run. rewrite main_eq. now destruct (port_argument argv).
Qed.

(** The port argument is [argv[2]] exactly when [argc >= 3]. *)
Lemma port_argument_nth argv :
  (3 <= List.length argv)%nat ->
  port_argument argv = stoi (nth 2 argv "").
Proof.
  destruct argv as [|a0 [|h [|p rest]]]; cbn [List.length]; try lia.
  reflexivity.
Qed.

Lemma port_argument_default argv :
  (List.length argv < 3)%nat -> port_argument argv = inr 8080.
Proof.
  destruct argv as [|a0 [|h [|p rest]]]; cbn [List.length]; try lia;
    reflexivity.
Qed.

End Behaviour.

(** ** [stoi] *)

Lemma in_int_range_iff v :
  in_int_range v = true <-> INT_MIN <= v <= INT_MAX.
Proof.
  unfold in_int_range. rewrite andb_true_iff, !Z.leb_le. tauto.
Qed.

Lemma stoi_range s n : stoi s = inr n -> INT_MIN <= n <= INT_MAX.
Proof.
  unfold stoi. destruct (subject s) as [neg [|d ds]]; [discriminate|].
  destruct (in_int_range _) eqn:R; [|discriminate].
  intros [= <-]. now apply in_int_range_iff.
Qed.

Lemma stoi_invalid_argument s :
  stoi s = inl invalid_argument <-> snd (subject s) = [].
Proof.
  unfold stoi. destruct (subject s) as [neg [|d ds]]; cbn [snd].
  - tauto.
  - destruct (in_int_range _); split; discriminate.
Qed.

Lemma stoi_out_of_range s :
  stoi s = inl out_of_range <->
  snd (subject s) <> [] /\
  ~ INT_MIN <= signed_value (fst (subject s)) (snd (subject s)) <= INT_MAX.
Proof.
  unfold stoi. destruct (subject s) as [neg [|d ds]]; cbn [fst snd].
  - split; [discriminate | intros [H _]; now destruct H].
  - destruct (in_int_range _) eqn:R.
    + apply in_int_range_iff in R. split; [discriminate | tauto].
    + split; [|reflexivity]. intros _. split; [discriminate|].
      rewrite <- in_int_range_iff, R. discriminate.
Qed.

Lemma stoi_raises_iff s : (exists e, stoi s = inl e) <-> unparseable s.
Proof.
  unfold unparseable, stoi.
  destruct (subject s) as [neg [|d ds]].
  - split; [now left | now exists invalid_argument].
  - destruct (in_int_range _) eqn:R.
    + apply in_int_range_iff in R. split.
      * intros [e He]; discriminate.
      * intros [H | H]; [discriminate | lia].
    + split; [|now exists out_of_range]. intros _. right.
      destruct (Z.le_gt_cases INT_MIN (signed_value neg (d :: ds))) as [L|L];
        [|lia].
      destruct (Z.le_gt_cases (signed_value neg (d :: ds)) INT_MAX) as [U|U];
        [|lia].
      assert (in_int_range (signed_value neg (d :: ds)) = true)
        by (apply in_int_range_iff; lia).
      congruence.
Qed.

(** What follows the converted digits is not read: a string that starts
    like a number is taken for that number. *)

Lemma skip_space_app (s rest : string) :
  skip_space s <> "" -> skip_space (s ++ rest) = skip_space s ++ rest.
Proof.
  induction s as [|c s IH]; cbn [skip_space append]; intros H.
  - now destruct H.
  - destruct (isspace c); [now apply IH | reflexivity].
Qed.

Lemma read_digits_app (s rest : string) :
  read_digits rest = [] -> read_digits (s ++ rest) = read_digits s.
Proof.
  intros Hrest. induction s as [|c s IH]; cbn [read_digits append].
  - assumption.
  - destruct (isdigit c); [now rewrite IH | reflexivity].
Qed.

Lemma subject_app (s rest : string) :
  snd (subject s) <> [] -> read_digits rest = [] ->
  subject (s ++ rest) = subject s.
Proof.
  unfold subject. intros Hds Hrest.
  assert (Hne : skip_space s <> "").
  { intros E. rewrite E in Hds. now apply Hds. }
  rewrite (skip_space_app s rest Hne).
  destruct (skip_space s) as [|c t]; [now destruct Hne|].
  cbn [append read_sign]. cbn [read_sign] in Hds.
  destruct (Ascii.eqb c "-"); [|destruct (Ascii.eqb c "+")];
    cbn [snd] in Hds |- *; f_equal.
  - now apply read_digits_app.
  - now apply read_digits_app.
  - now apply (read_digits_app (String c t)).
Qed.

Lemma stoi_app (s rest : string) :
  snd (subject s) <> [] -> read_digits rest = [] ->
  stoi (s ++ rest) = stoi s.
Proof.
  intros Hds Hrest. unfold stoi. now rewrite subject_app.
Qed.

(** ** Printing an [int] and reading it back *)

Lemma read_digits_cons c s :
  isdigit c = true -> read_digits (String c s) = digit_value c :: read_digits s.
Proof. intros H. cbn [read_digits]. now rewrite H. Qed.

Ltac eval_digit :=
  match goal with
  | |- context [digit_value ?c] =>
      let v := eval compute in (digit_value c) in
      change (digit_value c) with v
  end.

Lemma digits_value_of_uint_acc (d : Decimal.uint) (acc : positive) :
  fold_left (fun a x => 10 * a + x)
            (read_digits (NilEmpty.string_of_uint d)) (Z.pos acc)
  = Z.pos (Pos.of_uint_acc d acc).
Proof.
  revert acc. induction d as [|d IH|d IH|d IH|d IH|d IH|d IH|d IH|d IH|d IH|d IH];
    intros acc; cbn [NilEmpty.string_of_uint Pos.of_uint_acc];
    [reflexivity|..];
    rewrite read_digits_cons by reflexivity;
    cbn [fold_left]; rewrite <- IH; f_equal; eval_digit; lia.
Qed.

Lemma digits_value_of_uint (d : Decimal.uint) :
  digits_value (read_digits (NilEmpty.string_of_uint d)) = Z.of_N (Pos.of_uint d).
Proof.
  unfold digits_value.
  induction d as [|d IH|d IH|d IH|d IH|d IH|d IH|d IH|d IH|d IH|d IH];
    cbn [NilEmpty.string_of_uint Pos.of_uint]; [reflexivity|..];
    rewrite read_digits_cons by reflexivity; cbn [fold_left]; eval_digit;
    [exact IH | ..];
    cbn [Z.of_N]; rewrite <- digits_value_of_uint_acc; reflexivity.
Qed.

Lemma subject_string_of_uint (d : Decimal.uint) :
  d <> Decimal.Nil ->
  subject (NilEmpty.string_of_uint d)
  = (false, read_digits (NilEmpty.string_of_uint d))
  /\ read_digits (NilEmpty.string_of_uint d) <> [].
Proof.
  destruct d; intros H; try (now destruct H);
    (split; [reflexivity | cbn [NilEmpty.string_of_uint];
                           rewrite read_digits_cons by reflexivity;
                           discriminate]).
Qed.

Lemma subject_minus (s : string) : subject (String "-" s) = (true, read_digits s).
Proof. reflexivity. Qed.

Lemma show_int_pos (p : positive) :
  show_int (Z.pos p) = NilEmpty.string_of_uint (Pos.to_uint p).
Proof.
  unfold show_int; cbn [Z.to_int NilZero.string_of_int].
  pose proof (Unsigned.to_uint_nonnil p) as H.
  now destruct (Pos.to_uint p).
Qed.

Lemma show_int_neg (p : positive) :
  show_int (Z.neg p) = String "-" (NilEmpty.string_of_uint (Pos.to_uint p)).
Proof.
  unfold show_int; cbn [Z.to_int NilZero.string_of_int].
  pose proof (Unsigned.to_uint_nonnil p) as H.
  now destruct (Pos.to_uint p).
Qed.

Lemma digits_of_positive (p : positive) :
  digits_value (read_digits (NilEmpty.string_of_uint (Pos.to_uint p))) = Z.pos p.
Proof.
  rewrite digits_value_of_uint, Unsigned.of_to. reflexivity.
Qed.

(** Every [int] is read back by [stoi] from what [cout] prints for it. *)
Lemma stoi_show_int (n : Z) :
  INT_MIN <= n <= INT_MAX -> stoi (show_int n) = inr n.
Proof.
  intros Hn. apply in_int_range_iff in Hn.
  destruct n as [|p|p].
  - reflexivity.
  - rewrite show_int_pos. unfold stoi.
    destruct (subject_string_of_uint (Pos.to_uint p)
                (Unsigned.to_uint_nonnil p)) as [-> Hne].
    pose proof (digits_of_positive p) as Hv.
    destruct (read_digits _) as [|d ds]; [now destruct Hne|].
    unfold signed_value. rewrite Hv, Hn. reflexivity.
  - rewrite show_int_neg. unfold stoi. rewrite subject_minus.
    destruct (subject_string_of_uint (Pos.to_uint p)
                (Unsigned.to_uint_nonnil p)) as [_ Hne].
    pose proof (digits_of_positive p) as Hv.
    destruct (read_digits _) as [|d ds]; [now destruct Hne|].
    unfold signed_value. rewrite Hv. change (- Z.pos p) with (Z.neg p).
    rewrite Hn. reflexivity.
Qed.

(** ** Reading the port back from the printed line *)

Lemma append_inj_l (a b c : string) : a ++ b = a ++ c -> b = c.
Proof.
  induction a as [|x a IH]; cbn; [tauto|]. intros [= H]. auto.
Qed.

Lemma append_eq_self (a b : string) : a ++ b = a -> b = "".
Proof.
  intros H. apply (append_inj_l a). now rewrite append_empty_r.
Qed.

Lemma append_newline_inj (a b : string) :
  a ++ newline = b ++ newline -> a = b.
Proof.
  revert b. induction a as [|x a IH]; intros [|y b]; cbn; intros H.
  - reflexivity.
  - injection H as _ H. now destruct b.
  - injection H as _ H. now destruct a.
  - injection H as -> H. f_equal. auto.
Qed.

Lemma mentions_app (c : ascii) (a b : string) :
  mentions c (a ++ b) = mentions c a || mentions c b.
Proof.
  induction a as [|x a IH]; cbn; [reflexivity|].
  now rewrite IH, orb_assoc.
Qed.

Lemma mentions_string_of_uint (c : ascii) (d : Decimal.uint) :
  isdigit c = false -> mentions c (NilEmpty.string_of_uint d) = false.
Proof.
  intros Hc.
  induction d; cbn [NilEmpty.string_of_uint mentions]; [reflexivity|..];
    rewrite IHd, orb_false_r; apply Ascii.eqb_neq; intros <-; discriminate.
Qed.

Lemma mentions_show_int (c : ascii) (n : Z) :
  isdigit c = false -> c <> "-"%char -> mentions c (show_int n) = false.
Proof.
  intros Hd Hm. destruct n as [|p|p].
  - change (show_int 0) with "0". cbn [mentions].
    rewrite orb_false_r. apply Ascii.eqb_neq. intros <-; discriminate.
  - rewrite show_int_pos. now apply mentions_string_of_uint.
  - rewrite show_int_neg. cbn [mentions].
    rewrite mentions_string_of_uint by assumption.
    rewrite orb_false_r. apply Ascii.eqb_neq. congruence.
Qed.

Lemma show_int_inj (p n : Z) : show_int p = show_int n -> p = n.
Proof.
  unfold show_int. intros H.
  assert (Hnn : forall z, Z.to_int z <> Decimal.Pos Decimal.Nil
                          /\ Z.to_int z <> Decimal.Neg Decimal.Nil).
  { intros [|q|q]; cbn; split; try discriminate;
      intros [= E]; now apply (Unsigned.to_uint_nonnil q). }
  apply DecimalZ.to_int_inj.
  destruct (Hnn p) as [Hp1 Hp2], (Hnn n) as [Hn1 Hn2].
  pose proof (NilZero.isi _ Hp1 Hp2) as Ep.
  pose proof (NilZero.isi _ Hn1 Hn2) as En.
  rewrite H in Ep. congruence.
Qed.

(** The text after the last colon of the line is the port. *)
Lemma port_after_colon (h h' d d' : string) :
  mentions ":" d = false -> mentions ":" d' = false ->
  h ++ String ":" d = h' ++ String ":" d' -> d = d'.
Proof.
  intros Hd Hd'. revert h'.
  induction h as [|x h IH]; intros [|y h']; cbn; intros [= E].
  - assumption.
  - subst d. rewrite mentions_app in Hd. cbn in Hd.
    now rewrite orb_true_r in Hd.
  - subst d'. rewrite mentions_app in Hd'. cbn in Hd'.
    now rewrite orb_true_r in Hd'.
  - eauto.
Qed.

Lemma listening_line_port (host host' : string) (port port' : Z) :
  listening_line host port = listening_line host' port' -> port = port'.
Proof.
  unfold listening_line. intros H.
  apply append_inj_l in H.
  apply show_int_inj, append_newline_inj.
  apply (port_after_colon host host'); [| |exact H];
    rewrite mentions_app, mentions_show_int by (reflexivity || discriminate);
    reflexivity.
Qed.

(** ** The arguments [main] reads *)

Lemma host_argument_firstn (argv : list string) :
  host_argument argv = hd "127.0.0.1" (firstn 2 (tl argv)).
Proof.
  unfold host_argument. now destruct (tl argv) as [|h [|p rest]].
Qed.

Lemma port_argument_firstn (argv : list string) :
  port_argument argv =
  match firstn 2 (tl argv) with
  | [_; p] => stoi p
  | _ => inr 8080
  end.
Proof.
  unfold port_argument. now destruct (tl argv) as [|h [|p rest]].
Qed.

Lemma tl_firstn_3 (argv : list string) :
  firstn 2 (tl (firstn 3 argv)) = firstn 2 (tl argv).
Proof.
  now destruct argv as [|a0 [|h [|p rest]]].
Qed.

Section Runs.

Context {Env : Type}.
Implicit Types (w : World Env) (argv : list string).

(** Two argument vectors with the same first two arguments run alike. *)
Lemma run_firstn argv1 argv2 w :
  firstn 2 (tl argv1) = firstn 2 (tl argv2) -> run argv1 w = run argv2 w.
Proof.
  intros H. rewrite !run_eq, !host_argument_firstn, !port_argument_firstn.
  now rewrite H.
Qed.

Lemma printed_neq s w : s <> "" -> printed s w <> w.
Proof.
  intros Hs E. apply Hs. apply (f_equal w_cout) in E. cbn in E.
  now apply append_eq_self in E.
Qed.

(** A run that wrote the line for [port] got it from the port argument. *)
Lemma uses_port_argument argv w port :
  uses_port argv w port -> port_argument argv = inr port.
Proof.
  intros [host H]. rewrite run_eq in H.
  destruct (port_argument argv) as [e | n]; cbn [fst] in H.
  - symmetry in H. now apply printed_neq in H.
  - apply (f_equal w_cout) in H. cbn in H. apply append_inj_l in H.
    apply listening_line_port in H. now subst.
Qed.

(** Without a port argument nothing can throw. *)
Lemma run_without_port argv w :
  (List.length argv < 3)%nat ->
  run argv w
  = (printed (listening_line (host_argument argv) 8080) w, Exited 0).
Proof.
  intros H. now rewrite run_eq, (port_argument_default argv H).
Qed.

(** A port written the way [cout] prints it comes out as it went in. *)
Lemma run_show_int a0 host port rest w :
  INT_MIN <= port <= INT_MAX ->
  run (a0 :: host :: show_int port :: rest) w
  = (printed (listening_line host port) w, Exited 0).
Proof.
  intros H. rewrite run_eq. unfold port_argument, host_argument; cbn [tl].
  now rewrite (stoi_show_int port H).
Qed.

Lemma main_returns_zero argv w w' code :
  main argv w = (w', inr code) -> code = 0.
Proof.
  rewrite main_eq. destruct (port_argument argv); now intros [= _ <-].
Qed.

End Runs.

(** ** The properties of the stub *)

Section Stub.

Context {Env : Type}.
Implicit Types (w : World Env) (argv : list string).

(** C3. [listen] is a placeholder: for every host and port, in every
    world, it returns normally with no value, it appends the line
    "Listening on <host>:<port>" to standard output, and it leaves
    everything else of the world as it was. Nothing is thrown, whatever
    the state of the network. *)
Theorem listen_placeholder host port w :
  snd (listen host port w) = inr tt
  /\ w_cout (fst (listen host port w))
     = w_cout w ++ "Listening on " ++ host ++ ":" ++ show_int port ++ newline
  /\ w_env (fst (listen host port w)) = w_env w.
Proof.
  rewrite listen_eq. repeat split.
Qed.

(** C2. The host is the first argument, "127.0.0.1" when there is none;
    the port is the integer [stoi] reads from the second argument, 8080
    when there is none. With these the run prints the line and returns. *)
Theorem main_host_port_defaults argv w port :
  port_argument argv = inr port ->
  run argv w
  = (printed (listening_line (host_argument argv) port) w, Exited 0).
Proof.
  intros H. now rewrite run_eq, H.
Qed.

(** C4. When a second argument is present and [stoi] cannot convert it
    (no digit to read, or a value outside [int]), [stoi] throws, [listen]
    is never called, nothing is printed, and the process is terminated
    by the exception instead of returning from [main]. *)
Theorem main_stoi_raises argv w :
  (3 <= List.length argv)%nat ->
  unparseable (nth 2 argv "") ->
  exists e, stoi (nth 2 argv "") = inl e /\ run argv w = (w, Terminated e).
Proof.
  intros Hlen Hbad. apply stoi_raises_iff in Hbad as [e He].
  exists e. split; [assumption|].
  rewrite run_eq, (port_argument_nth argv Hlen), He. reflexivity.
Qed.

(** C10. Arguments after the second are ignored: two argument vectors
    that agree on their first two arguments give the same output and the
    same outcome, from the same world. *)
Theorem later_arguments_ignored argv1 argv2 w :
  firstn 2 (tl argv1) = firstn 2 (tl argv2) ->
  run argv1 w = run argv2 w.
Proof.
  apply run_firstn.
Qed.

(** C1, amended. Every run reads at most [argv[1]] and [argv[2]] and
    touches nothing but standard output. When [stoi] accepts the port
    argument (or there is none) the run prints exactly the one line and
    [main] returns 0; when [stoi] throws, nothing is printed and the
    process is terminated by the exception. *)
Theorem main_observable_effect argv w :
  run argv w = run (firstn 3 argv) w
  /\ w_env (fst (run argv w)) = w_env w
  /\ ((exists port,
         port_argument argv = inr port
         /\ run argv w
            = (printed (listening_line (host_argument argv) port) w,
               Exited 0))
      \/ (exists e,
            port_argument argv = inl e /\ run argv w = (w, Terminated e))).
Proof.
  split; [|split].
  - apply run_firstn. symmetry. apply tl_firstn_3.
  - rewrite run_eq. now destruct (port_argument argv).
  - rewrite run_eq. destruct (port_argument argv) as [e | port].
    + right. now exists e.
    + left. now exists port.
Qed.

(** C5, amended. Every run in which [listen] is reached ends with exit
    code 0, whatever the port, also one no listener could be bound to;
    the exit code says nothing about binding. *)
Theorem exit_code_zero argv w port :
  uses_port argv w port -> snd (run argv w) = Exited 0.
Proof.
  intros H. apply uses_port_argument in H.
  now rewrite run_eq, H.
Qed.

(** C6, amended. Every port the program uses is an [int], between
    -2147483648 and 2147483647, and is the default or what [stoi] read
    from the second argument. A second argument whose digits denote a value
    outside that range is rejected: [stoi] throws [std::out_of_range],
    nothing is printed and no port is used. No check against 0..65535 is
    made: every [int] the port argument yields is used as it is. *)
Theorem used_port_is_int argv w :
  (forall port,
     uses_port argv w port ->
     INT_MIN <= port <= INT_MAX /\ port_argument argv = inr port)
  /\ ((3 <= List.length argv)%nat ->
      snd (subject (nth 2 argv "")) <> [] ->
      ~ INT_MIN
        <= signed_value (fst (subject (nth 2 argv "")))
                        (snd (subject (nth 2 argv "")))
        <= INT_MAX ->
      run argv w = (w, Terminated out_of_range)
      /\ forall port, ~ uses_port argv w port)
  /\ (forall port, port_argument argv = inr port -> uses_port argv w port).
Proof.
  split; [|split].
  - intros port H. apply uses_port_argument in H. split; [|assumption].
    unfold port_argument in H.
    destruct (tl argv) as [|h [|p rest]];
      try (injection H as <-; unfold INT_MIN, INT_MAX; lia).
    now apply (stoi_range p).
  - intros Hlen Hds Hout.
    assert (Hrun : run argv w = (w, Terminated out_of_range)).
    { rewrite run_eq, (port_argument_nth argv Hlen).
      now rewrite (proj2 (stoi_out_of_range _) (conj Hds Hout)). }
    split; [assumption|].
    intros port [host H]. rewrite Hrun in H. cbn [fst] in H.
    symmetry in H. revert H. apply printed_neq. discriminate.
  - intros port H. exists (host_argument argv).
    now rewrite run_eq, H.
Qed.

End Stub.


(** ** Concrete runs *)

Lemma main_host_port_defaults_witness :
  port_argument ["tatsoryk"; "0.0.0.0"; "9000"] = inr 9000
  /\ run ["tatsoryk"; "0.0.0.0"; "9000"] fresh_world
     = (printed (listening_line "0.0.0.0" 9000) fresh_world, Exited 0).
Proof.
  split; [reflexivity|].
  apply (main_host_port_defaults ["tatsoryk"; "0.0.0.0"; "9000"]).
  reflexivity.
Defined.

Lemma main_stoi_raises_witness :
  (3 <= List.length ["tatsoryk"; "localhost"; "http"])%nat
  /\ unparseable "http"
  /\ exists e,
       stoi "http" = inl e
       /\ run ["tatsoryk"; "localhost"; "http"] fresh_world
          = (fresh_world, Terminated e).
Proof.
  assert (Hlen : (3 <= List.length ["tatsoryk"; "localhost"; "http"])%nat)
    by (simpl; lia).
  assert (Hbad : unparseable "http") by (left; reflexivity).
  split; [exact Hlen|]. split; [exact Hbad|].
  exact (main_stoi_raises ["tatsoryk"; "localhost"; "http"] fresh_world
           Hlen Hbad).
Defined.

Lemma later_arguments_ignored_witness :
  firstn 2 (tl ["tatsoryk"; "localhost"; "9000"; "--verbose"])
  = firstn 2 (tl ["./a.out"; "localhost"; "9000"; "-x"; "-y"])
  /\ run ["tatsoryk"; "localhost"; "9000"; "--verbose"] fresh_world
     = run ["./a.out"; "localhost"; "9000"; "-x"; "-y"] fresh_world.
Proof.
  split; [reflexivity|].
  apply later_arguments_ignored. reflexivity.
Defined.

Lemma exit_code_zero_witness :
  uses_port ["tatsoryk"; "127.0.0.1"; "70000"] fresh_world 70000
  /\ snd (run ["tatsoryk"; "127.0.0.1"; "70000"] fresh_world) = Exited 0.
Proof.
  assert (H : uses_port ["tatsoryk"; "127.0.0.1"; "70000"] fresh_world 70000)
    by (exists "127.0.0.1"; reflexivity).
  split; [exact H|].
  exact (exit_code_zero _ _ _ H).
Defined.

Lemma used_port_is_int_witness :
  (uses_port ["tatsoryk"; "127.0.0.1"; "-1"] fresh_world (-1)
   /\ INT_MIN <= -1 <= INT_MAX
   /\ port_argument ["tatsoryk"; "127.0.0.1"; "-1"] = inr (-1))
  /\ run ["tatsoryk"; "127.0.0.1"; "4294967376"] fresh_world
     = (fresh_world, Terminated out_of_range)
  /\ uses_port ["tatsoryk"; "127.0.0.1"; "70000"] fresh_world 70000.
Proof.
  split; [|split].
  - assert (H : uses_port ["tatsoryk"; "127.0.0.1"; "-1"] fresh_world (-1))
      by (exists "127.0.0.1"; reflexivity).
    split; [exact H|].
    exact (proj1 (used_port_is_int ["tatsoryk"; "127.0.0.1"; "-1"]
                    fresh_world) (-1) H).
  - apply (proj1 (proj2 (used_port_is_int
                           ["tatsoryk"; "127.0.0.1"; "4294967376"]
                           fresh_world))).
    + simpl; lia.
    + discriminate.
    + vm_compute. intros [_ H]. apply H. reflexivity.
  - apply (proj2 (proj2 (used_port_is_int
                           ["tatsoryk"; "127.0.0.1"; "70000"]
                           fresh_world))).
    reflexivity.
Defined.


(** ** Where the specification and the stub part *)

(** With a port argument that is no number the run prints nothing and
    [main] does not return. *)
Lemma no_line_for_bad_port :
  ~ prints_line_and_exits ["tatsoryk"; "localhost"; "http"] fresh_world.
Proof.
  intros (host & port & code & H).
  rewrite run_eq in H. cbn in H. discriminate H.
Qed.

(** Port 70000 cannot be bound, and the run still ends with exit code 0. *)
Lemma exit_zero_for_port_70000 :
  ~ bind_failure_exit_code ["tatsoryk"; "127.0.0.1"; "70000"] fresh_world.
Proof.
  intros H. apply (H 70000).
  - exists "127.0.0.1". reflexivity.
  - unfold valid_port. lia.
  - reflexivity.
Qed.

(** Port -1 is taken as it is and handed to [listen]. *)
Lemma negative_port_used :
  ~ ports_validated ["tatsoryk"; "127.0.0.1"; "-1"] fresh_world.
Proof.
  intros H.
  assert (V : valid_port (-1)).
  { apply H. exists "127.0.0.1". reflexivity. }
  unfold valid_port in V. lia.
Qed.


(** ** More on the two functions *)

(** *** Strings, continued *)

Lemma length_append (a b : string) :
  String.length (a ++ b) = (String.length a + String.length b)%nat.
Proof.
  induction a as [|x a IH]; cbn; [reflexivity | now rewrite IH].
Qed.

Lemma append_inj_r (a b c : string) : a ++ c = b ++ c -> a = b.
Proof.
  revert b. induction a as [|x a IH]; intros [|y b]; cbn; intros H.
  - reflexivity.
  - apply (f_equal String.length) in H. cbn in H.
    rewrite length_append in H. lia.
  - apply (f_equal String.length) in H. cbn in H.
    rewrite length_append in H. lia.
  - injection H as -> H. f_equal. now apply IH.
Qed.

(** The line tells the host and the port apart: the port has no colon, so
    the last colon of the line is the one [listen] wrote. *)
Lemma listening_line_inj (host host' : string) (port port' : Z) :
  listening_line host port = listening_line host' port' ->
  host = host' /\ port = port'.
Proof.
  intros H. pose proof (listening_line_port _ _ _ _ H) as <-.
  split; [|reflexivity].
  unfold listening_line in H. apply append_inj_l in H.
  now apply append_inj_r in H.
Qed.

(** *** [stoi], continued *)

Lemma skip_space_spaces (ws s : string) :
  Forall (fun c => isspace c = true) (list_ascii_of_string ws) ->
  skip_space (ws ++ s) = skip_space s.
Proof.
  induction ws as [|c ws IH]; cbn [list_ascii_of_string append skip_space];
    intros H.
  - reflexivity.
  - inversion H as [|? ? Hc Hws]; subst. rewrite Hc. now apply IH.
Qed.

Lemma subject_spaces (ws s : string) :
  Forall (fun c => isspace c = true) (list_ascii_of_string ws) ->
  subject (ws ++ s) = subject s.
Proof.
  intros H. unfold subject. now rewrite skip_space_spaces.
Qed.

(** What [stoi] makes of the digits [cout] prints for any integer. *)
Lemma stoi_show_int_any (n : Z) :
  stoi (show_int n) = if in_int_range n then inr n else inl out_of_range.
Proof.
  destruct n as [|p|p].
  - reflexivity.
  - rewrite show_int_pos. unfold stoi.
    destruct (subject_string_of_uint (Pos.to_uint p)
                (Unsigned.to_uint_nonnil p)) as [-> Hne].
    pose proof (digits_of_positive p) as Hv.
    destruct (read_digits _) as [|d ds]; [now destruct Hne|].
    unfold signed_value. now rewrite Hv.
  - rewrite show_int_neg. unfold stoi. rewrite subject_minus.
    destruct (subject_string_of_uint (Pos.to_uint p)
                (Unsigned.to_uint_nonnil p)) as [_ Hne].
    pose proof (digits_of_positive p) as Hv.
    destruct (read_digits _) as [|d ds]; [now destruct Hne|].
    unfold signed_value. now rewrite Hv.
Qed.



Lemma port_argument_inl (argv : list string) (e : exn) :
  port_argument argv = inl e <->
  (3 <= List.length argv)%nat /\ stoi (nth 2 argv "") = inl e.
Proof.
  destruct (Nat.lt_ge_cases (List.length argv) 3) as [H | H].
  - rewrite (port_argument_default argv H). split; [discriminate | lia].
  - rewrite (port_argument_nth argv H). tauto.
Qed.

Lemma port_argument_cons3 (a0 host p : string) (rest : list string) :
  port_argument (a0 :: host :: p :: rest) = stoi p
  /\ host_argument (a0 :: host :: p :: rest) = host.
Proof. split; reflexivity. Qed.

Section More.

Context {Env : Type}.
Implicit Types (w : World Env) (argv : list string).

Lemma snd_run_terminated argv w e :
  snd (run argv w) = Terminated e <-> port_argument argv = inl e.
Proof.
  rewrite run_eq. destruct (port_argument argv) as [e' | port]; cbn [snd].
  - split; intros [= ->]; reflexivity.
  - split; discriminate.
Qed.

(** X1. What [listen] writes names its arguments without ambiguity: two
    calls that leave the same output behind were given the same host and
    the same port, also when the host itself contains colons. *)
Theorem listen_output_injective host port host' port' w :
  fst (listen host port w) = fst (listen host' port' w) ->
  host = host' /\ port = port'.
Proof.
  rewrite !listen_eq. cbn [fst]. intros H.
  apply (f_equal w_cout) in H. cbn [printed w_cout] in H.
  apply append_inj_l in H. now apply listening_line_inj.
Qed.


(** X3. The process is terminated by an exception only through the port
    argument: it is terminated by [e] exactly when there are at least three
    entries in [argv] and [stoi] throws [e] on [argv[2]], and exactly then
    the whole run is the unchanged world, nothing printed, with that
    termination. *)
Theorem run_terminated_iff argv w e :
  (snd (run argv w) = Terminated e <->
   (3 <= List.length argv)%nat /\ stoi (nth 2 argv "") = inl e)
  /\ (run argv w = (w, Terminated e) <->
      (3 <= List.length argv)%nat /\ stoi (nth 2 argv "") = inl e).
Proof.
  split.
  - now rewrite snd_run_terminated, port_argument_inl.
  - rewrite <- port_argument_inl, <- (snd_run_terminated argv w e).
    split.
    + intros ->. reflexivity.
    + rewrite run_eq. destruct (port_argument argv) as [e' | port];
        cbn [snd]; [now intros [= ->] | discriminate].
Qed.

(** X4. Which exception ends the process: [std::invalid_argument] when
    [argv[2]] has no digit after its white space and sign,
    [std::out_of_range] when it has digits whose signed value does not fit
    an [int]. *)
Theorem run_exception_kind argv w :
  (snd (run argv w) = Terminated invalid_argument <->
   (3 <= List.length argv)%nat /\ snd (subject (nth 2 argv "")) = [])
  /\ (snd (run argv w) = Terminated out_of_range <->
      (3 <= List.length argv)%nat
      /\ snd (subject (nth 2 argv "")) <> []
      /\ ~ INT_MIN
           <= signed_value (fst (subject (nth 2 argv "")))
                           (snd (subject (nth 2 argv "")))
           <= INT_MAX).
Proof.
  split; rewrite snd_run_terminated, port_argument_inl.
  - now rewrite stoi_invalid_argument.
  - now rewrite stoi_out_of_range.
Qed.

(** X5. A port given the way [cout] prints integers: when it fits an [int]
    the run prints the line with the same port and returns 0, and when it
    does not the run is terminated by [std::out_of_range] with nothing
    printed. *)
Theorem run_printed_port a0 host (n : Z) rest w :
  run (a0 :: host :: show_int n :: rest) w
  = if in_int_range n
    then (printed (listening_line host n) w, Exited 0)
    else (w, Terminated out_of_range).
Proof.
  rewrite run_eq.
  destruct (port_argument_cons3 a0 host (show_int n) rest) as [-> ->].
  rewrite stoi_show_int_any. now destruct (in_int_range n).
Qed.

(** X6. The port a run prints, given back as the port argument, gives the
    same run: whatever [stoi] accepted, the printed port is read as the
    same number. *)
Theorem run_canonical_port a0 a0' host p (n : Z) rest rest' w :
  stoi p = inr n ->
  run (a0 :: host :: p :: rest) w
  = run (a0' :: host :: show_int n :: rest') w.
Proof.
  intros Hp. rewrite !run_eq.
  destruct (port_argument_cons3 a0 host p rest) as [-> ->].
  destruct (port_argument_cons3 a0' host (show_int n) rest') as [-> ->].
  now rewrite Hp, (stoi_show_int n (stoi_range p n Hp)).
Qed.

(** X7. White space before the number and whatever follows its digits do
    not matter: a port argument made of white space, a number and a rest
    that does not start with a digit gives the run of the number alone. *)
Theorem run_port_surroundings a0 host ws p junk rest w :
  Forall (fun c => isspace c = true) (list_ascii_of_string ws) ->
  snd (subject p) <> [] ->
  read_digits junk = [] ->
  run (a0 :: host :: (ws ++ p ++ junk) :: rest) w
  = run (a0 :: host :: p :: rest) w.
Proof.
  intros Hws Hp Hjunk. rewrite !run_eq.
  destruct (port_argument_cons3 a0 host (ws ++ p ++ junk) rest) as [-> ->].
  destruct (port_argument_cons3 a0 host p rest) as [-> ->].
  unfold stoi. rewrite (subject_spaces ws _ Hws).
  now rewrite (subject_app p junk Hp Hjunk).
Qed.

End More.

(** *** How long a printed [int] is *)

Lemma digit_value_bounds (c : ascii) :
  isdigit c = true -> 0 <= digit_value c <= 9.
Proof.
  unfold isdigit, digit_value. rewrite andb_true_iff, !N.leb_le. lia.
Qed.

Lemma read_digits_nonneg (s : string) : Forall (fun d => 0 <= d) (read_digits s).
Proof.
  induction s as [|c s IH]; cbn [read_digits]; [constructor|].
  destruct (isdigit c) eqn:Hc; constructor; [|assumption].
  now apply digit_value_bounds.
Qed.

Lemma length_read_digits_uint (d : Decimal.uint) :
  List.length (read_digits (NilEmpty.string_of_uint d))
  = String.length (NilEmpty.string_of_uint d).
Proof.
  induction d; cbn [NilEmpty.string_of_uint]; [reflexivity|..];
    rewrite read_digits_cons by reflexivity; cbn [List.length String.length];
    now rewrite IHd.
Qed.

(** Every further digit multiplies what was read so far by ten, at least. *)
Lemma fold_digits_lower (ds : list Z) (acc : Z) :
  Forall (fun d => 0 <= d) ds -> 0 <= acc ->
  acc * 10 ^ Z.of_nat (List.length ds)
  <= fold_left (fun a d => 10 * a + d) ds acc.
Proof.
  intros H. revert acc. induction H as [|d ds Hd _ IH]; intros acc Hacc.
  - cbn. lia.
  - cbn [fold_left List.length]. rewrite Nat2Z.inj_succ, Z.pow_succ_r by lia.
    specialize (IH (10 * acc + d) ltac:(lia)).
    assert (0 <= 10 ^ Z.of_nat (List.length ds)) by (apply Z.pow_nonneg; lia).
    nia.
Qed.

Lemma nzhead_not_D0 (d u : Decimal.uint) : Decimal.nzhead d <> Decimal.D0 u.
Proof.
  induction d; cbn; try discriminate. assumption.
Qed.

(** The decimal digits of a positive number do not start with a zero. *)
Lemma to_uint_not_D0 (p : positive) (u : Decimal.uint) :
  Pos.to_uint p <> Decimal.D0 u.
Proof.
  intros E.
  pose proof (Unsigned.to_of (Pos.to_uint p)) as H.
  rewrite Unsigned.of_to in H. cbn [N.to_uint] in H.
  rewrite E, DecimalFacts.unorm_D0 in H.
  unfold Decimal.unorm in H.
  destruct (Decimal.nzhead u) eqn:Hu; try discriminate H.
  - injection H as ->. now apply (Unsigned.to_uint_nonzero p).
  - exact (nzhead_not_D0 _ _ Hu).
Qed.

Lemma length_show_pos (p : positive) :
  10 ^ Z.of_nat (String.length (show_int (Z.pos p)) - 1) <= Z.pos p.
Proof.
  rewrite show_int_pos. rewrite <- (digits_of_positive p).
  rewrite <- length_read_digits_uint.
  pose proof (to_uint_not_D0 p) as Hhead.
  pose proof (Unsigned.to_uint_nonnil p) as Hnil.
  unfold digits_value.
  destruct (Pos.to_uint p) as [|u|u|u|u|u|u|u|u|u|u];
    [now destruct Hnil | now destruct (Hhead u) | ..];
    cbn [NilEmpty.string_of_uint];
    rewrite read_digits_cons by reflexivity;
    cbn [List.length fold_left]; rewrite Nat.sub_succ, Nat.sub_0_r; eval_digit;
    (etransitivity;
     [| apply fold_digits_lower; [apply read_digits_nonneg | lia]]);
    assert (0 <= 10 ^ Z.of_nat
                   (List.length (read_digits (NilEmpty.string_of_uint u))))
      by (apply Z.pow_nonneg; lia);
    lia.
Qed.

Lemma length_show_int (n : Z) :
  INT_MIN <= n <= INT_MAX ->
  (1 <= String.length (show_int n) <= 11)%nat.
Proof.
  intros [Hlo Hhi]. unfold INT_MIN in Hlo. unfold INT_MAX in Hhi.
  assert (Hpow : forall p k, 10 ^ Z.of_nat (k - 1) <= Z.pos p ->
                             Z.pos p < 10 ^ 10 -> (k <= 10)%nat).
  { intros p k H1 H2.
    destruct (Nat.le_gt_cases k 10) as [L | L]; [assumption|].
    assert (10 ^ 10 <= 10 ^ Z.of_nat (k - 1)) by (apply Z.pow_le_mono_r; lia).
    lia. }
  destruct n as [|p|p].
  - cbn. lia.
  - pose proof (length_show_pos p) as H.
    apply Hpow in H; [|lia].
    rewrite show_int_pos in *.
    pose proof (Unsigned.to_uint_nonnil p).
    destruct (Pos.to_uint p); cbn [NilEmpty.string_of_uint String.length] in *;
      try lia; now exfalso.
  - pose proof (length_show_pos p) as H.
    apply Hpow in H; [|lia].
    rewrite show_int_neg. rewrite show_int_pos in H.
    cbn [String.length]. lia.
Qed.

Lemma port_argument_range (argv : list string) (port : Z) :
  port_argument argv = inr port -> INT_MIN <= port <= INT_MAX.
Proof.
  unfold port_argument.
  destruct (tl argv) as [|h [|p rest]];
    try (intros [= <-]; unfold INT_MIN, INT_MAX; lia).
  apply stoi_range.
Qed.

(** X8. A run adds at most 26 characters besides the host to standard
    output: the port is an [int], printed in at most eleven characters. *)
Theorem run_output_length {Env : Type} (argv : list string) (w : World Env) :
  (String.length (w_cout (fst (run argv w)))
   <= String.length (w_cout w) + String.length (host_argument argv) + 26)%nat.
Proof.
  rewrite run_eq. destruct (port_argument argv) as [e | port] eqn:Hp.
  - cbn [fst]. lia.
  - cbn [fst printed w_cout]. unfold listening_line.
    pose proof (length_show_int port (port_argument_range argv port Hp)) as H.
    rewrite !length_append. cbn [String.length newline]. lia.
Qed.

(** *** Concrete runs, continued *)

Lemma listen_output_injective_witness :
  fst (listen "::1" 80 fresh_world) = fst (listen "::1" 80 fresh_world)
  /\ "::1" = "::1" /\ 80 = 80.
Proof.
  assert (H : fst (listen "::1" 80 fresh_world)
              = fst (listen "::1" 80 fresh_world)) by reflexivity.
  split; [exact H|].
  exact (listen_output_injective "::1" 80 "::1" 80 fresh_world H).
Defined.

Lemma run_canonical_port_witness :
  stoi " +0080/tcp" = inr 80
  /\ run ["tatsoryk"; "localhost"; " +0080/tcp"; "-v"] fresh_world
     = run ["./a.out"; "localhost"; show_int 80] fresh_world.
Proof.
  assert (H : stoi " +0080/tcp" = inr 80) by reflexivity.
  split; [exact H|].
  exact (run_canonical_port "tatsoryk" "./a.out" "localhost" " +0080/tcp" 80
           ["-v"] [] fresh_world H).
Defined.

Lemma run_port_surroundings_witness :
  Forall (fun c => isspace c = true) (list_ascii_of_string "  ")
  /\ snd (subject "-7") <> []
  /\ read_digits "/tcp" = []
  /\ run ["tatsoryk"; "localhost"; "  " ++ "-7" ++ "/tcp"] fresh_world
     = run ["tatsoryk"; "localhost"; "-7"] fresh_world.
Proof.
  assert (Hws : Forall (fun c => isspace c = true)
                       (list_ascii_of_string "  "))
    by (repeat constructor).
  assert (Hp : snd (subject "-7") <> []) by discriminate.
  assert (Hj : read_digits "/tcp" = []) by reflexivity.
  split; [exact Hws|]. split; [exact Hp|]. split; [exact Hj|].
  exact (run_port_surroundings "tatsoryk" "localhost" "  " "-7" "/tcp" []
           fresh_world Hws Hp Hj).
Defined.
